(** * Grenache UDP hole-punch example: fibonacci worker and its RPC glue

    Shallow embedding of [articles/udp/example/rpc_server_behind_nat.js]
    and of the consumer snippet of the accompanying article.

    JavaScript numbers are modelled as [Z]: every quantity below is an
    integer, and integer arithmetic on doubles is exact below 2^53. *)

From Equations Require Import Equations.
From stdpp Require Import gmap strings list.

Local Open Scope Z_scope.

(** ** The fibonacci sequence function *)

Module Fib.

(** [_fibonacci], evaluated with a bound on the depth of the call stack.
    [None] means the bound was reached before the call returned. *)
Fixpoint _fibonacci_fuel (fuel : nat) (n : Z) : option Z :=
  match fuel with
  | O => None
  | S k =>
      if bool_decide (n ≤ 1) then Some 1
      else
        a ← _fibonacci_fuel k (n - 1);
        b ← _fibonacci_fuel k (n - 2);
        Some (a + b)
  end.

(** The [for] loop of [fibonacci] with its accumulator [res], under the same
    kind of bound (one unit per iteration, the rest for the inner call). *)
Fixpoint fibonacci_loop_fuel (fuel : nat) (length i : Z) (res : list Z)
  : option (list Z) :=
  match fuel with
  | O => None
  | S k =>
      if bool_decide (i < length) then
        v ← _fibonacci_fuel k i;
        fibonacci_loop_fuel k length (i + 1) (res ++ [v])
      else Some res
  end.

Definition fibonacci_fuel (fuel : nat) (length : Z) : option (list Z) :=
  fibonacci_loop_fuel fuel length 0 [].

(** The same two functions as total functions; the recursion is justified
    by the measures [n] and [length - i]. *)
Equations? _fibonacci (n : Z) : Z by wf (Z.to_nat n) lt :=
  _fibonacci n with decide (n ≤ 1) => {
    | left _ := 1;
    | right _ := _fibonacci (n - 1) + _fibonacci (n - 2) }.
Proof. all: lia. Qed.

Equations? fibonacci_loop (length i : Z) (res : list Z) : list Z
  by wf (Z.to_nat (length - i)) lt :=
  fibonacci_loop length i res with decide (i < length) => {
    | left _ := fibonacci_loop length (i + 1) (res ++ [_fibonacci i]);
    | right _ := res }.
Proof. lia. Qed.

Definition fibonacci (length : Z) : list Z := fibonacci_loop length 0 [].

End Fib.

(** ** Values exchanged by the two example processes *)

(** The request payload, an object with a numeric [length] field. *)
Module Payload.

Record t := mk { length : Z }.

End Payload.

(** A UDP endpoint as the [punch] event reports it: address and port. *)
Abbreviation Addr := (string * Z)%type.

Abbreviation ErrorInfo := string.

(** What the scripts write to the console; [log_data None] prints the
    [undefined] a callback receives when there is no data. *)
Inductive console :=
| log (msg : string)
| log_addr (msg : string) (a : Addr)
| log_data (data : option (list Z))
| error (err : ErrorInfo).

(** Calls the scripts make into [grenache-nodejs-link] and
    [grenache-nodejs-utp], in program order. The options object of
    [link.announce], always [{}], is left out. *)
Inductive call :=
| say (c : console)
| handler_reply (err : option ErrorInfo) (result : list Z)
| link_announce (key : string) (port : Z)
| peer_punch (key : string)
| service_punch (other : Addr)
| peer_request (other : Addr) (payload : Payload.t) (timeout : Z)
    (cb : option ErrorInfo → option (list Z) → list console).

(** ** rpc_server_behind_nat.js *)

Module Server.

(** [service.on('request', (rid, key, payload, handler, cert, additional) => ...)] *)
Definition on_request (rid : N) (key : string) (payload : Payload.t)
  : list call :=
  [ say (log "received request, calculating & replying...");
    handler_reply None (Fib.fibonacci (Payload.length payload)) ].

(** [setInterval(function () { ... }, 1000)]: the callback and its period
    in milliseconds. *)
Definition on_interval (service_port : Z) : list call :=
  [ link_announce "fibonacci_worker" service_port;
    peer_punch "fibonacci_consumer" ].

Definition interval : Z := 1000.

End Server.

(** ** rpc_server_public.js, as shown in the article *)

Module Consumer.

(** The callback handed to [peer.request]. [if (err)] tests truthiness: a
    missing error and the empty string both take the success path. *)
Definition callback (err : option ErrorInfo) (data : option (list Z))
  : list console :=
  match err with
  | Some e =>
      if decide (e = "")
      then [ log "got data reply, sequence is:"; log_data data ]
      else [ error e ]
  | None => [ log "got data reply, sequence is:"; log_data data ]
  end.

(** [service.on('punch', (other) => ...)] *)
Definition on_punch (other : Addr) : list call :=
  [ say (log_addr "punch from" other);
    say (log "punching back...");
    service_punch other;
    peer_request other (Payload.mk 10) 10000 callback ].

(** [setInterval(function () { link.announce(...) }, 1000)] *)
Definition on_interval (service_port : Z) : list call :=
  [ link_announce "fibonacci_consumer" service_port ].

Definition interval : Z := 1000.

End Consumer.

(** ** The transport the scripts run on

    [grenache-nodejs-utp] and [grenache-nodejs-link] are dependencies of the
    examples; their sources are not part of this repository. *)

Module Transport.

(** Modelled from the spec: the progress of one remote candidate address
    through the traversal handshake (section 3, [PunchState]). *)
Inductive PunchState := Unknown | PunchSent | PunchReceived | Established.

(** Modelled from the spec: the request and reply envelopes and the three
    wire frames (sections 3 and 6). Request ids are 64-bit in the spec; the
    counter below never wraps, so they are plain naturals here. *)
Record RequestEnvelope := {
  req_id : N;
  req_key : string;
  req_payload : Payload.t }.

Record ReplyEnvelope := {
  rep_id : N;
  rep_error : option ErrorInfo;
  rep_result : list Z }.

Inductive Frame :=
| PUNCH (senderEcho : option (list Byte.byte))
| REQUEST (q : RequestEnvelope)
| REPLY (r : ReplyEnvelope).

(** Modelled from the spec: the three ways a call to [request()] completes
    (section 8): the handler's result, the handler's error, a timeout. *)
Inductive Completion :=
| Success (result : list Z)
| HandlerError (info : ErrorInfo)
| RequestTimeout.

(** Modelled from the spec: an in-flight request on the caller's side
    (section 3); its id is its key in the pending table. *)
Record PendingRequest := {
  deadline : Z;
  resultSink : Completion → list console }.

(** Modelled from the spec: the state the transport owns (section 3): the
    cache of looked-up peers, the punch-state table, the pending-request
    table, the request-id counter (the monotonic variant of request-id
    allocation) and the clock that deadlines are read against. The library
    that implements it is not in the repository. *)
Record State := {
  peers : gmap string (list Addr);
  punch : gmap Addr PunchState;
  pending : gmap N PendingRequest;
  next_id : N;
  clock : Z }.

Definition init : State :=
  {| peers := ∅; punch := ∅; pending := ∅; next_id := 0%N; clock := 0 |}.

(** Modelled from the spec: what an endpoint is configured with: the
    decoder of the wire format (its byte layout belongs to the library), the
    registered request handler and the registered [punch] subscriber. *)
Record Endpoint := {
  decode : list Byte.byte → option Frame;
  on_request : option (N → string → Payload.t → list call);
  on_punch : option (Addr → list call) }.

(** Modelled from the spec: everything an endpoint does that is visible
    from outside it: datagrams sent, result sinks invoked (with what the
    sink printed), events emitted, console output, directory calls. *)
Inductive Effect :=
| Send (to : Addr) (f : Frame)
| Resolve (rid : N) (c : Completion) (out : list console)
| PeerReady (b : Addr)
| Console (c : console)
| Announce (key : string) (port : Z)
| Lookup (key : string).

(** Modelled from the spec: what happens to an endpoint. [Tick] is a firing
    of the periodic callback and carries the answers the directory gives
    during that tick ([None]: the directory is unavailable). *)
Inductive Event :=
| Datagram (src : Addr) (bytes : list Byte.byte)
| Clock (now : Z)
| Cancel (rid : N)
| CallRequest (to : Addr) (payload : Payload.t) (timeout : Z)
    (sink : Completion → list console)
| Tick (callback : list call) (dir : string → option (list Addr)).

Definition set_peers v (st : State) : State :=
  {| peers := v; punch := punch st; pending := pending st;
     next_id := next_id st; clock := clock st |}.
Definition set_punch v (st : State) : State :=
  {| peers := peers st; punch := v; pending := pending st;
     next_id := next_id st; clock := clock st |}.
Definition set_pending v (st : State) : State :=
  {| peers := peers st; punch := punch st; pending := v;
     next_id := next_id st; clock := clock st |}.
Definition set_clock v (st : State) : State :=
  {| peers := peers st; punch := punch st; pending := pending st;
     next_id := next_id st; clock := v |}.

Definition below_established (s : option PunchState) : bool :=
  match s with Some Established => false | _ => true end.

(** Modelled from the spec: sending one punch datagram to [a] (section 4.2,
    [Unknown -> PunchSent]); an entry that is further along keeps its state. *)
Definition send_punch (a : Addr) (st : State) : State * list Effect :=
  let s := match punch st !! a with
           | None | Some Unknown => PunchSent
           | Some s => s
           end in
  (set_punch (<[a := s]> (punch st)) st, [Send a (PUNCH None)]).

(** Modelled from the spec: the punch step over a candidate set (section
    4.2): every candidate not yet [Established] is sent a punch datagram. *)
Fixpoint punch_step (cands : list Addr) (st : State) : State * list Effect :=
  match cands with
  | [] => (st, [])
  | a :: rest =>
      if below_established (punch st !! a) then
        let '(st1, out1) := send_punch a st in
        let '(st2, out2) := punch_step rest st1 in
        (st2, out1 ++ out2)
      else punch_step rest st
  end.

(** Modelled from the spec: [request(addr, payload, timeout)] (section 4.3):
    a fresh request id, a pending request with [deadline = now + timeout],
    and the request datagram. A request addressed to an endpoint carries an
    empty key. *)
Definition request (to : Addr) (payload : Payload.t) (timeout : Z)
    (sink : Completion → list console) (st : State) : State * list Effect :=
  let rid := next_id st in
  let p := {| deadline := clock st + timeout; resultSink := sink |} in
  ({| peers := peers st; punch := punch st;
      pending := <[rid := p]> (pending st);
      next_id := N.succ rid; clock := clock st |},
   [Send to (REQUEST {| req_id := rid; req_key := ""; req_payload := payload |})]).

(** Modelled from the spec: how a Node-style callback [(err, data) => ...]
    serves as a result sink; a failure comes without data. *)
Definition sink_of (cb : option ErrorInfo → option (list Z) → list console)
  : Completion → list console :=
  λ c, match c with
       | Success result => cb None (Some result)
       | HandlerError info => cb (Some info) None
       | RequestTimeout => cb (Some "RequestTimeout") None
       end.

(** Modelled from the spec: what each call of a script does on the
    transport. [origin] is the request being answered, when there is one;
    [dir] is what the directory answers. *)
Definition exec_call (origin : option (Addr * N))
    (dir : string → option (list Addr)) (c : call) (st : State)
  : State * list Effect :=
  match c with
  | say line => (st, [Console line])
  | handler_reply err result =>
      match origin with
      | Some (src, rid) =>
          (st, [Send src (REPLY {| rep_id := rid; rep_error := err;
                                   rep_result := result |})])
      | None => (st, [])
      end
  | link_announce key port => (st, [Announce key port])
  | peer_punch key =>
      match dir key with
      | Some cands =>
          let '(st1, out) :=
            punch_step cands (set_peers (<[key := cands]> (peers st)) st) in
          (st1, Lookup key :: out)
      | None => (st, [Lookup key])
      end
  | service_punch other => send_punch other st
  | peer_request other payload timeout cb =>
      request other payload timeout (sink_of cb) st
  end.

Fixpoint exec (origin : option (Addr * N))
    (dir : string → option (list Addr)) (cs : list call) (st : State)
  : State * list Effect :=
  match cs with
  | [] => (st, [])
  | c :: rest =>
      let '(st1, out1) := exec_call origin dir c st in
      let '(st2, out2) := exec origin dir rest st1 in
      (st2, out1 ++ out2)
  end.

Definition no_directory : string → option (list Addr) := λ _, None.

(** Modelled from the spec: a reply with an error is a handler error, one
    without is a success (section 7, [HandlerError]). *)
Definition completion_of (r : ReplyEnvelope) : Completion :=
  match rep_error r with
  | Some info => HandlerError info
  | None => Success (rep_result r)
  end.

Definition errorFlag (r : ReplyEnvelope) : bool :=
  match rep_error r with Some _ => true | None => false end.

(** Modelled from the spec: the dispatch of one decoded frame (section
    4.3), punch first, then reply, then request. A punch from an address
    whose state is absent or below [Established] is answered at once with a
    punch-back, the address becomes [Established] and the punch event goes to
    the subscriber (section 4.2). *)
Definition dispatch (ep : Endpoint) (src : Addr) (f : Frame) (st : State)
  : State * list Effect :=
  match f with
  | PUNCH _ =>
      if below_established (punch st !! src) then
        let st1 := set_punch (<[src := Established]> (punch st)) st in
        let '(st2, out) :=
          exec None no_directory
               (match on_punch ep with Some h => h src | None => [] end) st1 in
        (st2, Send src (PUNCH None) :: PeerReady src :: out)
      else (st, [])
  | REPLY r =>
      match pending st !! rep_id r with
      | Some p =>
          let c := completion_of r in
          (set_pending (delete (rep_id r) (pending st)) st,
           [Resolve (rep_id r) c (resultSink p c)])
      | None => (st, [])
      end
  | REQUEST q =>
      match on_request ep with
      | Some h =>
          exec (Some (src, req_id q)) no_directory
               (h (req_id q) (req_key q) (req_payload q)) st
      | None => (st, [])
      end
  end.

(** Modelled from the spec: deadline expiry (section 4.3): every pending
    request whose deadline has elapsed fails with [RequestTimeout] and is
    removed. *)
Definition expire (now : Z) (st : State) : State * list Effect :=
  let gone := filter (λ kp, deadline kp.2 ≤ now) (pending st) in
  (set_clock now
     (set_pending (filter (λ kp, ¬ deadline kp.2 ≤ now) (pending st)) st),
   (λ kp, Resolve kp.1 RequestTimeout (resultSink kp.2 RequestTimeout))
     <$> map_to_list gone).

(** Modelled from the spec: one step of an endpoint. A datagram that does
    not decode is dropped (section 7, [MalformedFrame]); a cancelled request
    loses its pending entry and nothing is sent (section 5). *)
Definition step (ep : Endpoint) (st : State) (ev : Event)
  : State * list Effect :=
  match ev with
  | Datagram src bytes =>
      match decode ep bytes with
      | Some f => dispatch ep src f st
      | None => (st, [])
      end
  | Clock now => expire now st
  | Cancel rid => (set_pending (delete rid (pending st)) st, [])
  | CallRequest to payload timeout sink => request to payload timeout sink st
  | Tick callback dir => exec None dir callback st
  end.

Fixpoint run (ep : Endpoint) (st : State) (evs : list Event)
  : State * list Effect :=
  match evs with
  | [] => (st, [])
  | ev :: rest =>
      let '(st1, out1) := step ep st ev in
      let '(st2, out2) := run ep st1 rest in
      (st2, out1 ++ out2)
  end.

(** The completions delivered for request [rid] in a list of effects. *)
Definition completions (rid : N) (out : list Effect) : list Completion :=
  omap (λ e, match e with
             | Resolve r c _ => if decide (r = rid) then Some c else None
             | _ => None
             end) out.

(** Request ids in use lie below the counter. *)
Definition ids_below_counter (st : State) : Prop :=
  ∀ rid, is_Some (pending st !! rid) → (rid < next_id st)%N.

(** The timer behind [setInterval(callback, period)]: its firings up to and
    including time [horizon], each with the time it happens at. *)
Definition setInterval (callback : list call) (period horizon : Z)
    (dir : string → option (list Addr)) : list (Z * Event) :=
  (λ k, (k * period, Tick callback dir)) <$> seqZ 1 (horizon `div` period).

End Transport.

(** ** The two processes as endpoints, and notions used in the statements *)

Import Transport.

(** [rpc_server_behind_nat.js] registers a request handler and nothing for
    [punch]; the public server registers a [punch] handler only. *)
Definition server_endpoint (d : list Byte.byte → option Frame) : Endpoint :=
  {| decode := d; on_request := Some Server.on_request; on_punch := None |}.

Definition consumer_endpoint (d : list Byte.byte → option Frame) : Endpoint :=
  {| decode := d; on_request := None; on_punch := Some Consumer.on_punch |}.

(** The event settles the request [rid] whose pending entry is [p]: a reply
    with that id, the deadline elapsing, or a cancellation. *)
Definition touches (ep : Endpoint) (rid : N) (p : PendingRequest)
    (ev : Event) : bool :=
  match ev with
  | Datagram _ bytes =>
      match decode ep bytes with
      | Some (REPLY r) => bool_decide (rep_id r = rid)
      | _ => false
      end
  | Clock now => bool_decide (deadline p ≤ now)
  | Cancel r => bool_decide (r = rid)
  | _ => false
  end.


(** The completions that come from an accepted reply. *)
Definition accepted (cs : list Completion) : list Completion :=
  omap (λ c, match c with RequestTimeout => None | _ => Some c end) cs.

(** How many completions request [rid] can still receive from [st] on. *)
Definition budget (st : State) (rid : N) : nat :=
  if decide (is_Some (pending st !! rid) ∨ (next_id st ≤ rid)%N)
  then 1%nat else 0%nat.

(** [st'] continues [st]: the id counter only grows, requests already
    issued keep their entry, and new entries take their ids from the
    counter. *)
Definition extends (st st' : State) : Prop :=
  (next_id st ≤ next_id st')%N ∧
  (∀ rid, (rid < next_id st)%N → pending st' !! rid = pending st !! rid) ∧
  (∀ rid, is_Some (pending st' !! rid) →
          is_Some (pending st !! rid) ∨ (next_id st ≤ rid < next_id st')%N).

Definition no_resolve (out : list Effect) : Prop :=
  Forall (λ e, match e with Resolve _ _ _ => False | _ => True end) out.

Definition lookups (out : list Effect) : list string :=
  omap (λ e, match e with Lookup k => Some k | _ => None end) out.

(** A decoder for a few one- and two-byte datagrams, to run the statements
    on concrete input: byte 0 is the frame type, requests carry
    [length + 1], replies an error flag and the result. *)
Definition sample_decode (bytes : list Byte.byte) : option Frame :=
  match bytes with
  | [Byte.x00] => Some (PUNCH None)
  | [Byte.x01; n] =>
      Some (REQUEST {| req_id := 0; req_key := "";
                       req_payload := Payload.mk (Z.of_N (Byte.to_N n) - 1) |})
  | Byte.x02 :: flag :: data =>
      Some (REPLY {| rep_id := 0;
                     rep_error := match flag with
                                  | Byte.x00 => None
                                  | _ => Some "failed"
                                  end;
                     rep_result := (λ b, Z.of_N (Byte.to_N b)) <$> data |})
  | _ => None
  end.

(** A state in which request 0 is pending with deadline 50. *)
Definition sample_state : State :=
  {| peers := ∅; punch := ∅;
     pending := {[ 0%N := {| deadline := 50;
                             resultSink := sink_of Consumer.callback |} ]};
     next_id := 1%N; clock := 0 |}.

(** ** The cost of the fibonacci functions, and a loop to compare with *)

Module FibCost.

(** [_fibonacci] evaluated as in [Fib._fibonacci_fuel], returning with the
    value the number of calls of [_fibonacci] made, the outermost included. *)
Fixpoint _fibonacci_calls (fuel : nat) (n : Z) : option (Z * Z) :=
  match fuel with
  | O => None
  | S k =>
      if bool_decide (n ≤ 1) then Some (1, 1)
      else
        '(a, ca) ← _fibonacci_calls k (n - 1);
        '(b, cb) ← _fibonacci_calls k (n - 2);
        Some (a + b, 1 + ca + cb)
  end.

(** The [for] loop of [fibonacci], adding up the calls of [_fibonacci] that
    its iterations make. *)
Fixpoint fibonacci_loop_calls (fuel : nat) (length i : Z) (res : list Z)
    (calls : Z) : option (list Z * Z) :=
  match fuel with
  | O => None
  | S k =>
      if bool_decide (i < length) then
        '(v, c) ← _fibonacci_calls k i;
        fibonacci_loop_calls k length (i + 1) (res ++ [v]) (calls + c)
      else Some (res, calls)
  end.

Definition fibonacci_calls (fuel : nat) (length : Z) : option (list Z * Z) :=
  fibonacci_loop_calls fuel length 0 [] 0.

(** The accumulator loop for the sequence 1, 1, 2, 3, 5, ...: after [k]
    rounds the pair holds its elements number [k] and [k + 1]. It is not
    part of the scripts; the worker's function is compared with it. *)
Fixpoint fib_pair (k : nat) : Z * Z :=
  match k with
  | O => (1, 1)
  | S k' => let '(a, b) := fib_pair k' in (b, a + b)
  end.

(** The sum of a list of numbers. *)
Definition total (l : list Z) : Z := foldr Z.add 0 l.

End FibCost.

(** ** Facts about the fibonacci functions *)

Section FibFacts.
Import Fib.

Lemma _fibonacci_base n : n ≤ 1 → _fibonacci n = 1.
Proof. intros Hn. simp _fibonacci. destruct (decide (n ≤ 1)); [done | lia]. Qed.

Lemma _fibonacci_rec n :
  1 < n → _fibonacci n = _fibonacci (n - 1) + _fibonacci (n - 2).
Proof.
  intros Hn. rewrite (_fibonacci_equation_1 n).
  destruct (decide (n ≤ 1)); [lia | done].
Qed.

Lemma _fibonacci_fuel_enough fuel n :
  (Z.to_nat n < fuel)%nat → _fibonacci_fuel fuel n = Some (_fibonacci n).
Proof.
  revert n. induction fuel as [|k IH]; intros n Hk; [lia |].
  cbn [_fibonacci_fuel]. case_bool_decide as Hn.
  - by rewrite _fibonacci_base.
  - rewrite !IH by lia. cbn. by rewrite (_fibonacci_rec n) by lia.
Qed.

Lemma fibonacci_loop_done length i res :
  length ≤ i → fibonacci_loop length i res = res.
Proof.
  intros Hi. simp fibonacci_loop. destruct (decide (i < length)); [lia | done].
Qed.

Lemma fibonacci_loop_next length i res :
  i < length →
  fibonacci_loop length i res =
  fibonacci_loop length (i + 1) (res ++ [_fibonacci i]).
Proof.
  intros Hi. rewrite (fibonacci_loop_equation_1 length i res).
  destruct (decide (i < length)); [done | lia].
Qed.

Lemma fibonacci_loop_seqZ length i res :
  fibonacci_loop length i res = res ++ (_fibonacci <$> seqZ i (length - i)).
Proof.
  remember (Z.to_nat (length - i)) as m eqn:Hm.
  revert i res Hm. induction m as [|m IH]; intros i res Hm.
  - rewrite fibonacci_loop_done by lia.
    rewrite seqZ_nil by lia. by rewrite app_nil_r.
  - rewrite fibonacci_loop_next by lia.
    rewrite IH by lia. rewrite (seqZ_cons i) by lia.
    rewrite <- app_assoc. cbn.
    replace (Z.succ i) with (i + 1) by lia.
    by replace (Z.pred (length - i)) with (length - (i + 1)) by lia.
Qed.

Lemma fibonacci_seqZ length :
  fibonacci length = _fibonacci <$> seqZ 0 length.
Proof.
  unfold fibonacci. rewrite fibonacci_loop_seqZ. cbn. do 2 f_equal. lia.
Qed.

Lemma fibonacci_loop_fuel_enough fuel length i res :
  (Z.to_nat (length - i) + Z.to_nat length < fuel)%nat →
  fibonacci_loop_fuel fuel length i res = Some (fibonacci_loop length i res).
Proof.
  revert i res. induction fuel as [|k IH]; intros i res Hk; [lia |].
  cbn [fibonacci_loop_fuel]. case_bool_decide as Hi.
  - rewrite _fibonacci_fuel_enough by lia. cbn.
    rewrite IH by lia. by rewrite (fibonacci_loop_next length i) by lia.
  - by rewrite fibonacci_loop_done by lia.
Qed.

Lemma fibonacci_lookup length (i : nat) :
  Z.of_nat i < length → fibonacci length !! i = Some (_fibonacci (Z.of_nat i)).
Proof.
  intros Hi. rewrite fibonacci_seqZ, list_lookup_fmap.
  rewrite lookup_seqZ_lt by lia. cbn. repeat f_equal; lia.
Qed.

End FibFacts.


(** ** Facts about the transport *)

Section TransportFacts.

Implicit Types (st : State) (ep : Endpoint) (out : list Effect) (rid : N).

Lemma completions_app rid out1 out2 :
  completions rid (out1 ++ out2) = completions rid out1 ++ completions rid out2.
Proof. apply omap_app. Qed.

Lemma no_resolve_completions rid out : no_resolve out → completions rid out = [].
Proof.
  induction 1 as [|e out He _ IH]; [done |].
  destruct e; cbn in *; done.
Qed.

Lemma no_resolve_app out1 out2 :
  no_resolve out1 → no_resolve out2 → no_resolve (out1 ++ out2).
Proof. apply Forall_app_2. Qed.

Lemma extends_refl st : extends st st.
Proof. split_and!; [lia | done | by left]. Qed.

Lemma extends_trans st1 st2 st3 :
  extends st1 st2 → extends st2 st3 → extends st1 st3.
Proof.
  intros (Hn1 & Hk1 & Hi1) (Hn2 & Hk2 & Hi2). split_and!.
  - lia.
  - intros rid Hr. rewrite Hk2 by lia. by apply Hk1.
  - intros rid Hr. destruct (Hi2 rid Hr) as [H2|H2].
    + destruct (Hi1 rid H2) as [H1|H1]; [by left | right; lia].
    + right; lia.
Qed.

Lemma extends_same st st' :
  next_id st' = next_id st → pending st' = pending st → extends st st'.
Proof. intros Hn Hp. unfold extends. rewrite Hn, Hp. split_and!; [lia | done | by left]. Qed.

Lemma extends_ids_below_counter st st' :
  extends st st' → ids_below_counter st → ids_below_counter st'.
Proof.
  intros (Hn & _ & Hi) Hinv rid Hr.
  destruct (Hi rid Hr) as [H|H]; [apply Hinv in H |]; lia.
Qed.

Lemma extends_budget st st' rid :
  extends st st' → (budget st' rid ≤ budget st rid)%nat.
Proof.
  intros (Hn & _ & Hi). unfold budget.
  destruct (decide (is_Some (pending st' !! rid) ∨ _)) as [H'|H']; [| lia].
  rewrite decide_True; [done |].
  destruct H' as [H'|H']; [| right; lia].
  destruct (Hi rid H') as [H|H]; [by left | right; lia].
Qed.

Lemma send_punch_spec a st :
  next_id (send_punch a st).1 = next_id st ∧
  pending (send_punch a st).1 = pending st ∧
  (send_punch a st).2 = [Send a (PUNCH None)] ∧
  (∀ b, below_established (punch (send_punch a st).1 !! b)
        = below_established (punch st !! b)).
Proof.
  split_and!; try done. intros b. cbn.
  destruct (decide (a = b)) as [->|Hab].
  - rewrite lookup_insert_eq. by destruct (punch st !! b) as [[]|].
  - by rewrite lookup_insert_ne.
Qed.

Lemma punch_step_spec cands st :
  next_id (punch_step cands st).1 = next_id st ∧
  pending (punch_step cands st).1 = pending st ∧
  (punch_step cands st).2 =
    (λ a, Send a (PUNCH None))
      <$> List.filter (λ a, below_established (punch st !! a)) cands.
Proof.
  revert st. induction cands as [|a rest IH]; intros st; [done |].
  cbn [punch_step List.filter].
  destruct (below_established (punch st !! a)) eqn:Hb.
  - destruct (send_punch_spec a st) as (Hn & Hp & Ho & Hbelow).
    destruct (send_punch a st) as [st1 out1]; cbn in Hn, Hp, Ho, Hbelow.
    destruct (IH st1) as (Hn' & Hp' & Ho').
    destruct (punch_step rest st1) as [st2 out2]; cbn in *.
    subst out1 out2. split_and!; [congruence | congruence |].
    cbn. f_equal. f_equal. apply filter_ext_in_iff. intros b _. apply Hbelow.
  - apply IH.
Qed.

Lemma request_spec to payload timeout sink st :
  extends st (request to payload timeout sink st).1 ∧
  no_resolve (request to payload timeout sink st).2.
Proof.
  split; [| repeat constructor]. cbn. split_and!; cbn.
  - lia.
  - intros rid Hr. rewrite lookup_insert_ne; [done | lia].
  - intros rid Hr. destruct (decide (next_id st = rid)) as [<-|Hne].
    + right; lia.
    + rewrite lookup_insert_ne in Hr by done. by left.
Qed.

Lemma exec_call_spec origin dir c st :
  extends st (exec_call origin dir c st).1 ∧
  no_resolve (exec_call origin dir c st).2.
Proof.
  destruct c as [line|err result|key port|key|other|other payload timeout cb];
    cbn [exec_call].
  - split; [apply extends_refl | repeat constructor].
  - destruct origin as [[src rid]|];
      (split; [apply extends_refl | repeat constructor]).
  - split; [apply extends_refl | repeat constructor].
  - destruct (dir key) as [cands|];
      [| split; [apply extends_refl | repeat constructor]].
    destruct (punch_step_spec cands (set_peers (<[key:=cands]> (peers st)) st))
      as (Hn & Hp & Ho).
    destruct (punch_step cands _) as [st1 out]; cbn in *. split.
    + by apply extends_same.
    + constructor; [done |]. subst out. apply Forall_fmap, Forall_true. done.
  - destruct (send_punch_spec other st) as (Hn & Hp & Ho & _). split.
    + by apply extends_same.
    + rewrite Ho. repeat constructor.
  - apply request_spec.
Qed.

Lemma exec_spec origin dir cs st :
  extends st (exec origin dir cs st).1 ∧ no_resolve (exec origin dir cs st).2.
Proof.
  revert st. induction cs as [|c rest IH]; intros st; cbn [exec].
  - split; [apply extends_refl | constructor].
  - destruct (exec_call_spec origin dir c st) as [He1 Hq1].
    destruct (exec_call origin dir c st) as [st1 out1].
    destruct (IH st1) as [He2 Hq2].
    destruct (exec origin dir rest st1) as [st2 out2]; cbn in *. split.
    + by eapply extends_trans.
    + by apply no_resolve_app.
Qed.

Lemma omap_fmap_comp {A B C} (f : A → B) (g : B → option C) (l : list A) :
  omap g (f <$> l) = omap (λ x, g (f x)) l.
Proof. induction l as [|x l IH]; csimpl; [done |]. by rewrite IH. Qed.

(** Picking the entry of one key out of the listing of a table. *)
Lemma omap_map_to_list_key {A B} (m : gmap N A) rid
    (F : N * A → option B) (h : A → B) :
  (∀ k a, F (k, a) = if decide (k = rid) then Some (h a) else None) →
  omap F (map_to_list m) = match m !! rid with Some a => [h a] | None => [] end.
Proof.
  intros HF. induction m as [|i x m Hi Hfirst IH] using map_first_key_ind.
  - by rewrite map_to_list_empty, lookup_empty.
  - rewrite map_to_list_insert_first_key by done. csimpl.
    rewrite IH, HF. destruct (decide (i = rid)) as [->|Hne].
    + by rewrite lookup_insert_eq, Hi.
    + by rewrite lookup_insert_ne.
Qed.

Lemma expire_completions now st rid :
  completions rid (expire now st).2 =
  match pending st !! rid with
  | Some p => if decide (deadline p ≤ now) then [RequestTimeout] else []
  | None => []
  end.
Proof.
  unfold expire, completions; cbn [snd].
  rewrite omap_fmap_comp.
  rewrite (omap_map_to_list_key _ rid _ (λ _, RequestTimeout)) by done.
  rewrite map_lookup_filter.
  destruct (pending st !! rid) as [p|]; cbn; [| done].
  destruct (decide (deadline p ≤ now));
    [by rewrite option_guard_True | by rewrite option_guard_False].
Qed.

Lemma expire_pending now st rid :
  pending (expire now st).1 !! rid =
  match pending st !! rid with
  | Some p => if decide (deadline p ≤ now) then None else Some p
  | None => None
  end.
Proof.
  cbn. rewrite map_lookup_filter.
  destruct (pending st !! rid) as [p|]; cbn; [| done].
  destruct (decide (deadline p ≤ now));
    [by rewrite option_guard_False by tauto | by rewrite option_guard_True].
Qed.

Lemma budget_zero st rid :
  pending st !! rid = None → (rid < next_id st)%N → budget st rid = 0%nat.
Proof.
  intros Hp Hr. unfold budget. rewrite decide_False; [done |].
  rewrite Hp. intros [[? [=]]|?]; lia.
Qed.

Lemma budget_pending st rid :
  is_Some (pending st !! rid) → budget st rid = 1%nat.
Proof. intros Hp. unfold budget. rewrite decide_True; [done | by left]. Qed.

Lemma budget_le_1 st rid : (budget st rid ≤ 1)%nat.
Proof. unfold budget. case_decide; lia. Qed.

(** A step that only removes entries from the pending table. *)
Lemma shrink_budget st st' rid :
  next_id st' = next_id st →
  (∀ r, is_Some (pending st' !! r) → is_Some (pending st !! r)) →
  (ids_below_counter st → ids_below_counter st') ∧
  (budget st' rid ≤ budget st rid)%nat.
Proof.
  intros Hn Hsub. split.
  - intros Hinv r Hr. rewrite Hn. by apply Hinv, Hsub.
  - unfold budget. rewrite Hn.
    destruct (decide (is_Some (pending st' !! rid) ∨ _)) as [H'|H']; [| lia].
    rewrite decide_True; [done |]. destruct H'; [left; by apply Hsub | by right].
Qed.

Lemma dispatch_extends ep src f st :
  (∀ r, f ≠ REPLY r) →
  extends st (dispatch ep src f st).1 ∧ no_resolve (dispatch ep src f st).2.
Proof.
  intros Hf. destruct f as [echo|q|r]; cbn [dispatch]; [| | by destruct (Hf r)].
  - destruct (below_established (punch st !! src));
      [| split; [apply extends_refl | constructor]].
    set (st1 := set_punch _ st).
    set (cs := match on_punch ep with Some h => h src | None => [] end).
    destruct (exec_spec None no_directory cs st1) as [Hext Hq].
    destruct (exec None no_directory cs st1) as [st2 out]; cbn [fst snd] in *.
    split; [| by repeat constructor].
    eapply extends_trans; [by apply (extends_same st st1) | done].
  - destruct (on_request ep) as [h|];
      [apply exec_spec | split; [apply extends_refl | constructor]].
Qed.

Lemma dispatch_budget ep src f st rid :
  ids_below_counter st →
  ids_below_counter (dispatch ep src f st).1 ∧
  (length (completions rid (dispatch ep src f st).2)
   + budget (dispatch ep src f st).1 rid ≤ budget st rid)%nat.
Proof.
  intros Hinv.
  assert (∀ g, (∀ r, g ≠ REPLY r) →
    ids_below_counter (dispatch ep src g st).1 ∧
    (length (completions rid (dispatch ep src g st).2)
     + budget (dispatch ep src g st).1 rid ≤ budget st rid)%nat) as Hother.
  { intros g Hg. destruct (dispatch_extends ep src g st Hg) as [Hext Hq].
    split; [by eapply extends_ids_below_counter |].
    rewrite no_resolve_completions by done. by apply extends_budget. }
  destruct f as [echo|q|r]; [by apply Hother | by apply Hother |].
  cbn [dispatch].
  destruct (pending st !! rep_id r) as [p|] eqn:Hp; [| cbn; split; [done | lia]].
  cbn [fst snd].
  destruct (shrink_budget st (set_pending (delete (rep_id r) (pending st)) st) rid)
    as [Hinv' Hb]; [done | | ].
  { intros r'. cbn. rewrite lookup_delete_is_Some. tauto. }
  split; [by apply Hinv' |].
  unfold completions; cbn. destruct (decide (rep_id r = rid)) as [<-|Hne].
  - rewrite budget_zero, (budget_pending st); cbn; [lia | by rewrite Hp | |].
    + apply lookup_delete_eq.
    + apply Hinv. by rewrite Hp.
  - cbn. lia.
Qed.

Lemma step_budget ep st ev rid :
  ids_below_counter st →
  ids_below_counter (step ep st ev).1 ∧
  (length (completions rid (step ep st ev).2)
   + budget (step ep st ev).1 rid ≤ budget st rid)%nat.
Proof.
  intros Hinv. destruct ev as [src bytes|now|r|to payload timeout sink|cb dir];
    cbn [step].
  - destruct (decode ep bytes) as [f|]; [by apply dispatch_budget |].
    cbn; split; [done | lia].
  - destruct (shrink_budget st (expire now st).1 rid) as [Hinv' Hb]; [done | |].
    { intros r'. rewrite expire_pending.
      destruct (pending st !! r') as [p|]; [by eauto | by intros [? [=]]]. }
    split; [by apply Hinv' |].
    rewrite expire_completions.
    destruct (pending st !! rid) as [p|] eqn:Hp; [| exact Hb].
    destruct (decide (deadline p ≤ now)); [| exact Hb].
    rewrite budget_zero, (budget_pending st); [done | by rewrite Hp | |].
    + rewrite expire_pending, Hp. by rewrite decide_True.
    + apply Hinv. by rewrite Hp.
  - destruct (shrink_budget st (set_pending (delete r (pending st)) st) rid)
      as [Hinv' Hb]; [done | |].
    { intros r'. cbn. rewrite lookup_delete_is_Some. tauto. }
    cbn. split; [by apply Hinv' | lia].
  - destruct (request_spec to payload timeout sink st) as [Hext Hq].
    split; [by eapply extends_ids_below_counter |].
    rewrite no_resolve_completions by done. cbn. by apply extends_budget.
  - destruct (exec_spec None dir cb st) as [Hext Hq].
    split; [by eapply extends_ids_below_counter |].
    rewrite no_resolve_completions by done. cbn. by apply extends_budget.
Qed.

Lemma run_budget ep st evs rid :
  ids_below_counter st →
  ids_below_counter (run ep st evs).1 ∧
  (length (completions rid (run ep st evs).2) ≤ budget st rid)%nat.
Proof.
  revert st. induction evs as [|ev rest IH]; intros st Hinv; cbn [run].
  - cbn. split; [done | lia].
  - destruct (step_budget ep st ev rid Hinv) as [Hinv1 Hb1].
    destruct (step ep st ev) as [st1 out1]; cbn [fst snd] in Hinv1, Hb1.
    destruct (IH st1 Hinv1) as [Hinv2 Hb2].
    destruct (run ep st1 rest) as [st2 out2]; cbn [fst snd] in *.
    split; [done |]. rewrite completions_app, length_app. lia.
Qed.

Lemma run_app ep st evs1 evs2 :
  run ep st (evs1 ++ evs2) =
  let '(st1, out1) := run ep st evs1 in
  let '(st2, out2) := run ep st1 evs2 in
  (st2, out1 ++ out2).
Proof.
  revert st. induction evs1 as [|ev rest IH]; intros st; cbn [run app].
  - by destruct (run ep st evs2).
  - destruct (step ep st ev) as [st1 out1]. rewrite IH.
    destruct (run ep st1 rest) as [st2 out2].
    destruct (run ep st2 evs2) as [st3 out3]. by rewrite app_assoc.
Qed.




Lemma run_budget_final ep st evs rid :
  ids_below_counter st →
  (budget (run ep st evs).1 rid ≤ budget st rid)%nat.
Proof.
  revert st. induction evs as [|ev rest IH]; intros st Hinv; cbn [run]; [done |].
  destruct (step_budget ep st ev rid Hinv) as [Hinv1 Hb1].
  destruct (step ep st ev) as [st1 out1]; cbn [fst snd] in *.
  specialize (IH st1 Hinv1).
  destruct (run ep st1 rest) as [st2 out2]; cbn [fst snd] in *. lia.
Qed.

Lemma budget_zero_pending st rid :
  budget st rid = 0%nat → pending st !! rid = None.
Proof.
  unfold budget. case_decide as H; [done |]. intros _.
  destruct (pending st !! rid) eqn:Hp; [| done]. destruct H. left. eauto.
Qed.

(** Any of the three ways a request ends removes its entry for good. *)
Lemma step_touches_budget ep st ev rid p :
  ids_below_counter st →
  pending st !! rid = Some p →
  touches ep rid p ev = true →
  budget (step ep st ev).1 rid = 0%nat.
Proof.
  intros Hinv Hp Ht.
  assert (rid < next_id st)%N as Hlt by (apply Hinv; by rewrite Hp).
  destruct ev as [src bytes|now|r|to payload timeout sink|cb dir];
    cbn [step touches] in *; try done.
  - destruct (decode ep bytes) as [[echo|q|r]|]; try done.
    apply bool_decide_eq_true in Ht as <-. cbn [dispatch]. rewrite Hp.
    apply budget_zero; [apply lookup_delete_eq | done].
  - apply bool_decide_eq_true in Ht. apply budget_zero; [| done].
    rewrite expire_pending, Hp. by rewrite decide_True.
  - apply bool_decide_eq_true in Ht as ->.
    apply budget_zero; [apply lookup_delete_eq | done].
Qed.

Lemma reply_without_pending ep st src bytes r :
  decode ep bytes = Some (REPLY r) →
  pending st !! rep_id r = None →
  step ep st (Datagram src bytes) = (st, []).
Proof. intros Hd Hp. cbn [step]. rewrite Hd. cbn [dispatch]. by rewrite Hp. Qed.

Lemma length_accepted cs : (length (accepted cs) ≤ length cs)%nat.
Proof.
  induction cs as [|c cs IH]; [done |]. unfold accepted in *.
  destruct c; cbn in *; lia.
Qed.

(** What the server script answers to a request. *)
Lemma server_answers d st src bytes q :
  d bytes = Some (REQUEST q) →
  step (server_endpoint d) st (Datagram src bytes) =
  (st, [ Console (log "received request, calculating & replying...");
         Send src (REPLY {| rep_id := req_id q; rep_error := None;
                            rep_result :=
                              Fib.fibonacci (Payload.length (req_payload q)) |}) ]).
Proof. intros Hd. cbn [step server_endpoint decode]. by rewrite Hd. Qed.

(** What the consumer script does with the first punch from [b]. *)
Lemma consumer_punched d st b bytes echo :
  d bytes = Some (PUNCH echo) →
  below_established (punch st !! b) = true →
  punch (step (consumer_endpoint d) st (Datagram b bytes)).1 !! b
    = Some Established ∧
  pending (step (consumer_endpoint d) st (Datagram b bytes)).1
    = <[next_id st := {| deadline := clock st + 10000;
                         resultSink := sink_of Consumer.callback |}]> (pending st) ∧
  (step (consumer_endpoint d) st (Datagram b bytes)).2 =
    [ Send b (PUNCH None);
      PeerReady b;
      Console (log_addr "punch from" b);
      Console (log "punching back...");
      Send b (PUNCH None);
      Send b (REQUEST {| req_id := next_id st; req_key := "";
                         req_payload := Payload.mk 10 |}) ].
Proof.
  intros Hd Hb. cbn [step consumer_endpoint decode]. rewrite Hd.
  cbn [dispatch]. rewrite Hb. cbn. by rewrite !lookup_insert_eq.
Qed.

Lemma lookups_punches (l : list Addr) :
  lookups ((λ a, Send a (PUNCH None)) <$> l) = [].
Proof. induction l as [|a l IH]; [done |]. by cbn. Qed.

Lemma exec_peer_punch_lookups origin dir keys st :
  lookups (exec origin dir (peer_punch <$> keys) st).2 = keys.
Proof.
  revert st. induction keys as [|k keys IH]; intros st; [done |].
  cbn [fmap list_fmap exec exec_call].
  destruct (dir k) as [cands|].
  - destruct (punch_step_spec cands (set_peers (<[k:=cands]> (peers st)) st))
      as (_ & _ & Ho).
    destruct (punch_step cands _) as [st1 out1]; cbn [fst snd] in *.
    specialize (IH st1).
    destruct (exec origin dir (peer_punch <$> keys) st1) as [st2 out2].
    cbn [fst snd] in *. subst out1. unfold lookups in *. cbn.
    rewrite omap_app. fold (lookups ((λ a, Send a (PUNCH None)) <$>
      List.filter (λ a, below_established
        (punch (set_peers (<[k:=cands]> (peers st)) st) !! a)) cands)).
    rewrite lookups_punches. cbn. by rewrite IH.
  - specialize (IH st).
    destruct (exec origin dir (peer_punch <$> keys) st) as [st2 out2].
    cbn [fst snd] in *. unfold lookups in *. cbn. by rewrite IH.
Qed.

End TransportFacts.

(** ** The fibonacci worker *)

(** C1: for the request payload [{length: 10}] the registered request
    handler computes [fibonacci] on [payload.length] and replies with a null
    error and the list [1,1,2,3,5,8,13,21,34,55]; the consumer, whose punch
    handler sent that request, resolves it to exactly that list; and
    [fibonacci(10)] is that list. *)
Theorem fibonacci_10_request :
  Fib.fibonacci 10 = [1; 1; 2; 3; 5; 8; 13; 21; 34; 55] ∧
  (∀ d st src bytes q,
     d bytes = Some (REQUEST q) →
     req_payload q = Payload.mk 10 →
     step (server_endpoint d) st (Datagram src bytes) =
     (st, [ Console (log "received request, calculating & replying...");
            Send src (REPLY {| rep_id := req_id q; rep_error := None;
                               rep_result := [1; 1; 2; 3; 5; 8; 13; 21; 34; 55] |}) ])) ∧
  (∀ d st b pbytes echo rbytes,
     d pbytes = Some (PUNCH echo) →
     below_established (punch st !! b) = true →
     d rbytes = Some (REPLY {| rep_id := next_id st; rep_error := None;
                               rep_result := Fib.fibonacci 10 |}) →
     let st1 := (step (consumer_endpoint d) st (Datagram b pbytes)).1 in
     (step (consumer_endpoint d) st1 (Datagram b rbytes)).2 =
     [ Resolve (next_id st) (Success [1; 1; 2; 3; 5; 8; 13; 21; 34; 55])
         [ log "got data reply, sequence is:";
           log_data (Some [1; 1; 2; 3; 5; 8; 13; 21; 34; 55]) ] ]).
Proof.
  assert (Fib.fibonacci 10 = [1; 1; 2; 3; 5; 8; 13; 21; 34; 55]) as H10
    by reflexivity.
  split_and!; [done | |].
  - intros d st src bytes q Hd Hq.
    rewrite (server_answers d st src bytes q Hd), Hq. cbn [Payload.length].
    by rewrite H10.
  - intros d st b pbytes echo rbytes Hp Hb Hr st1.
    destruct (consumer_punched d st b pbytes echo Hp Hb) as (_ & Hpend & _).
    fold st1 in Hpend. cbn [step consumer_endpoint decode]. rewrite Hr.
    cbn [dispatch rep_id]. rewrite Hpend, lookup_insert_eq.
    unfold completion_of. cbn [rep_error rep_result resultSink snd].
    by rewrite H10.
Qed.

Lemma fibonacci_10_request_witness :
  step (server_endpoint sample_decode) init
       (Datagram ("127.0.0.1", 51563) [Byte.x01; Byte.x0b]) =
  (init, [ Console (log "received request, calculating & replying...");
           Send ("127.0.0.1", 51563)
                (REPLY {| rep_id := 0; rep_error := None;
                          rep_result := [1; 1; 2; 3; 5; 8; 13; 21; 34; 55] |}) ]) ∧
  (step (consumer_endpoint sample_decode)
        (step (consumer_endpoint sample_decode) init
              (Datagram ("127.0.0.1", 52217) [Byte.x00])).1
        (Datagram ("127.0.0.1", 52217)
           [Byte.x02; Byte.x00; Byte.x01; Byte.x01; Byte.x02; Byte.x03;
            Byte.x05; Byte.x08; Byte.x0d; Byte.x15; Byte.x22; Byte.x37])).2 =
  [ Resolve 0 (Success [1; 1; 2; 3; 5; 8; 13; 21; 34; 55])
      [ log "got data reply, sequence is:";
        log_data (Some [1; 1; 2; 3; 5; 8; 13; 21; 34; 55]) ] ].
Proof.
  split.
  - apply (proj1 (proj2 fibonacci_10_request)
             sample_decode init ("127.0.0.1", 51563) [Byte.x01; Byte.x0b]
             {| req_id := 0; req_key := ""; req_payload := Payload.mk 10 |});
      reflexivity.
  - apply (proj2 (proj2 fibonacci_10_request)
             sample_decode init ("127.0.0.1", 52217) [Byte.x00] None);
      reflexivity.
Defined.

(** C2, as amended: for the request payload [{length: -1}] the registered
    request handler raises no failure: [fibonacci(-1)] is the empty list, the
    handler replies with a null error ([errorFlag] false) and the empty
    result, and the consumer's request resolves to that empty list as a
    success. *)
Theorem length_minus_one_empty_result :
  Fib.fibonacci (-1) = [] ∧
  (∀ d st src bytes q,
     d bytes = Some (REQUEST q) →
     req_payload q = Payload.mk (-1) →
     ∃ r, step (server_endpoint d) st (Datagram src bytes) =
          (st, [ Console (log "received request, calculating & replying...");
                 Send src (REPLY r) ]) ∧
          rep_id r = req_id q ∧ rep_error r = None ∧ errorFlag r = false ∧
          rep_result r = []) ∧
  (∀ d st b pbytes echo rbytes,
     d pbytes = Some (PUNCH echo) →
     below_established (punch st !! b) = true →
     d rbytes = Some (REPLY {| rep_id := next_id st; rep_error := None;
                               rep_result := Fib.fibonacci (-1) |}) →
     let st1 := (step (consumer_endpoint d) st (Datagram b pbytes)).1 in
     (step (consumer_endpoint d) st1 (Datagram b rbytes)).2 =
     [ Resolve (next_id st) (Success [])
         [ log "got data reply, sequence is:"; log_data (Some []) ] ]).
Proof.
  assert (Fib.fibonacci (-1) = []) as Hm by reflexivity.
  split_and!; [done | |].
  - intros d st src bytes q Hd Hq. eexists. split.
    + rewrite (server_answers d st src bytes q Hd), Hq. cbn [Payload.length].
      by rewrite Hm.
    + done.
  - intros d st b pbytes echo rbytes Hp Hb Hr st1.
    destruct (consumer_punched d st b pbytes echo Hp Hb) as (_ & Hpend & _).
    fold st1 in Hpend. cbn [step consumer_endpoint decode]. rewrite Hr.
    cbn [dispatch rep_id]. rewrite Hpend, lookup_insert_eq.
    unfold completion_of. cbn [rep_error rep_result resultSink snd].
    by rewrite Hm.
Qed.

Lemma length_minus_one_empty_result_witness :
  ∃ r, step (server_endpoint sample_decode) init
            (Datagram ("127.0.0.1", 51563) [Byte.x01; Byte.x00]) =
       (init, [ Console (log "received request, calculating & replying...");
                Send ("127.0.0.1", 51563) (REPLY r) ]) ∧
       rep_id r = 0%N ∧ rep_error r = None ∧ errorFlag r = false ∧
       rep_result r = [].
Proof.
  apply (proj1 (proj2 length_minus_one_empty_result)
           sample_decode init ("127.0.0.1", 51563) [Byte.x01; Byte.x00]
           {| req_id := 0; req_key := ""; req_payload := Payload.mk (-1) |});
    reflexivity.
Defined.

(** C2, as stated, fails: on the request with payload [{length: -1}] the
    server sends no reply whose [errorFlag] is set, and the consumer that
    receives the server's reply is not handed a failure. *)
Lemma length_minus_one_is_no_failure :
  ¬ (∃ r, Send ("127.0.0.1", 51563) (REPLY r) ∈
            (step (server_endpoint sample_decode) init
                  (Datagram ("127.0.0.1", 51563) [Byte.x01; Byte.x00])).2
          ∧ errorFlag r = true) ∧
  completions 0 (step (consumer_endpoint sample_decode) sample_state
                      (Datagram ("127.0.0.1", 52217) [Byte.x02; Byte.x00])).2
  = [Success []].
Proof.
  split; [| reflexivity].
  intros (r & Hin & Hflag).
  rewrite (server_answers sample_decode init _ _
             {| req_id := 0; req_key := ""; req_payload := Payload.mk (-1) |})
    in Hin by reflexivity.
  cbn [snd] in Hin.
  apply elem_of_cons in Hin as [[=]|Hin].
  apply list_elem_of_singleton in Hin. injection Hin as ->. done.
Qed.

(** C8: for every integer [length <= 0] (so also for [-1]), [fibonacci]
    returns the empty list and raises nothing (the bounded evaluation returns
    as soon as it may take one step), and the request handler therefore
    replies with a null error and an empty result. *)
Theorem fibonacci_nonpositive_empty (length : Z) :
  length ≤ 0 →
  Fib.fibonacci length = [] ∧
  (∀ fuel, Fib.fibonacci_fuel (S fuel) length = Some []) ∧
  (∀ rid key,
     Server.on_request rid key (Payload.mk length) =
     [ say (log "received request, calculating & replying...");
       handler_reply None [] ]) ∧
  (∀ d st src bytes q,
     d bytes = Some (REQUEST q) →
     req_payload q = Payload.mk length →
     step (server_endpoint d) st (Datagram src bytes) =
     (st, [ Console (log "received request, calculating & replying...");
            Send src (REPLY {| rep_id := req_id q; rep_error := None;
                               rep_result := [] |}) ])).
Proof.
  intros Hlen.
  assert (Fib.fibonacci length = []) as Hnil
    by (unfold Fib.fibonacci; by rewrite fibonacci_loop_done by lia).
  split_and!.
  - done.
  - intros fuel. unfold Fib.fibonacci_fuel. cbn [Fib.fibonacci_loop_fuel].
    by rewrite bool_decide_eq_false_2 by lia.
  - intros rid key. unfold Server.on_request. cbn [Payload.length].
    by rewrite Hnil.
  - intros d st src bytes q Hd Hq.
    rewrite (server_answers d st src bytes q Hd), Hq. cbn [Payload.length].
    by rewrite Hnil.
Qed.

Lemma fibonacci_nonpositive_empty_witness :
  Fib.fibonacci (-1) = [] ∧ Fib.fibonacci 0 = [].
Proof.
  split.
  - apply (fibonacci_nonpositive_empty (-1)). lia.
  - apply (fibonacci_nonpositive_empty 0). lia.
Defined.

(** C9: the inner recursion [_fibonacci(n)] returns for every integer [n]:
    any [n <= 1], negative ones included, returns 1 at once, and in general a
    call stack deeper than [n] is enough; hence [fibonacci(length)] returns
    for every integer [length]. *)
Theorem fibonacci_terminates :
  (∀ n fuel, n ≤ 1 → Fib._fibonacci_fuel (S fuel) n = Some 1) ∧
  (∀ n, ∃ v, ∀ fuel,
     (Z.to_nat n < fuel)%nat → Fib._fibonacci_fuel fuel n = Some v) ∧
  (∀ length, ∃ res, ∀ fuel,
     (2 * Z.to_nat length < fuel)%nat →
     Fib.fibonacci_fuel fuel length = Some res).
Proof.
  split_and!.
  - intros n fuel Hn. cbn [Fib._fibonacci_fuel].
    by rewrite bool_decide_eq_true_2.
  - intros n. exists (Fib._fibonacci n). intros fuel Hf.
    by apply _fibonacci_fuel_enough.
  - intros length. exists (Fib.fibonacci length). intros fuel Hf.
    apply fibonacci_loop_fuel_enough. lia.
Qed.

Lemma fibonacci_terminates_witness :
  Fib._fibonacci_fuel 1 (-7) = Some 1 ∧
  (∃ v, ∀ fuel, (Z.to_nat 30 < fuel)%nat → Fib._fibonacci_fuel fuel 30 = Some v).
Proof.
  split.
  - apply (proj1 fibonacci_terminates (-7) 0%nat). lia.
  - apply (proj1 (proj2 fibonacci_terminates) 30).
Defined.

(** C10: for every non-negative integer [n], [fibonacci(n)] has exactly [n]
    elements, it is a prefix of [fibonacci(n+1)], its first two elements
    (when present) are both 1, and every element at an index [i >= 2] is the
    sum of the elements at [i-1] and [i-2]. *)
Theorem fibonacci_sequence (n : Z) :
  0 ≤ n →
  Z.of_nat (length (Fib.fibonacci n)) = n ∧
  Fib.fibonacci n `prefix_of` Fib.fibonacci (n + 1) ∧
  (∀ (i : nat) v, (i < 2)%nat → Fib.fibonacci n !! i = Some v → v = 1) ∧
  (∀ (i : nat), (2 ≤ i)%nat → Z.of_nat i < n →
     ∃ a b, Fib.fibonacci n !! (i - 1)%nat = Some a ∧
            Fib.fibonacci n !! (i - 2)%nat = Some b ∧
            Fib.fibonacci n !! i = Some (a + b)).
Proof.
  intros Hn. split_and!.
  - rewrite fibonacci_seqZ, length_fmap, length_seqZ. lia.
  - rewrite !fibonacci_seqZ. exists [Fib._fibonacci n].
    rewrite (seqZ_app 0 n 1) by lia. rewrite fmap_app.
    f_equal; cbn; do 2 f_equal; lia.
  - intros i v Hi Hv.
    assert (Z.of_nat i < n) as Hlt.
    { apply lookup_lt_Some in Hv.
      rewrite fibonacci_seqZ, length_fmap, length_seqZ in Hv. lia. }
    rewrite fibonacci_lookup in Hv by done. injection Hv as <-.
    apply _fibonacci_base. lia.
  - intros i Hi Hlt.
    exists (Fib._fibonacci (Z.of_nat i - 1)), (Fib._fibonacci (Z.of_nat i - 2)).
    rewrite !fibonacci_lookup by lia. split_and!.
    + do 2 f_equal. lia.
    + do 2 f_equal. lia.
    + f_equal. apply _fibonacci_rec. lia.
Qed.

Lemma fibonacci_sequence_witness :
  Z.of_nat (length (Fib.fibonacci 10)) = 10 ∧
  Fib.fibonacci 10 `prefix_of` Fib.fibonacci (10 + 1).
Proof.
  split; apply (fibonacci_sequence 10); lia.
Defined.

(** ** The first event that settles a request *)



(** ** Requests, replies and deadlines *)




(** C4: for every request id at most one reply is accepted, and once the
    request is over (a reply was accepted, the deadline removed it, or it was
    cancelled) every later reply with that id, however much happens in
    between, is dropped: the state stays as it is and nothing is sent,
    delivered or printed. The same holds for any reply whose id has no
    pending request. *)
Theorem duplicate_reply_discarded ep st rid :
  ids_below_counter st →
  (∀ evs, (length (accepted (completions rid (run ep st evs).2)) ≤ 1)%nat) ∧
  (∀ p ev evs src bytes r,
     pending st !! rid = Some p →
     touches ep rid p ev = true →
     decode ep bytes = Some (REPLY r) →
     rep_id r = rid →
     let st1 := (step ep st ev).1 in
     let st2 := (run ep st1 evs).1 in
     step ep st2 (Datagram src bytes) = (st2, [])) ∧
  (∀ src bytes r,
     decode ep bytes = Some (REPLY r) →
     rep_id r = rid →
     pending st !! rid = None →
     step ep st (Datagram src bytes) = (st, [])).
Proof.
  intros Hinv. split_and!.
  - intros evs. destruct (run_budget ep st evs rid Hinv) as [_ Hb].
    pose proof (budget_le_1 st rid).
    pose proof (length_accepted (completions rid (run ep st evs).2)). lia.
  - intros p ev evs src bytes r Hp Ht Hd Hr st1 st2.
    apply (reply_without_pending ep st2 src bytes r Hd).
    rewrite Hr. apply budget_zero_pending.
    pose proof (step_touches_budget ep st ev rid p Hinv Hp Ht) as Hz.
    destruct (step_budget ep st ev rid Hinv) as [Hinv1 _].
    pose proof (run_budget_final ep (step ep st ev).1 evs rid Hinv1) as Hf.
    fold st1 in Hz, Hf. fold st2 in Hf. lia.
  - intros src bytes r Hd Hr Hp.
    apply (reply_without_pending ep st src bytes r Hd). by rewrite Hr.
Qed.

Lemma duplicate_reply_discarded_witness :
  let st2 :=
    (run (consumer_endpoint sample_decode)
         (step (consumer_endpoint sample_decode) sample_state
               (Datagram ("127.0.0.1", 52217) [Byte.x02; Byte.x00; Byte.x01])).1
         [Clock 60; Datagram ("127.0.0.1", 52217) [Byte.x00]]).1 in
  step (consumer_endpoint sample_decode) st2
       (Datagram ("127.0.0.1", 52217) [Byte.x02; Byte.x00; Byte.x01])
  = (st2, []).
Proof.
  refine (proj1 (proj2 (duplicate_reply_discarded
            (consumer_endpoint sample_decode) sample_state 0 _))
          {| deadline := 50; resultSink := sink_of Consumer.callback |}
          (Datagram ("127.0.0.1", 52217) [Byte.x02; Byte.x00; Byte.x01])
          [Clock 60; Datagram ("127.0.0.1", 52217) [Byte.x00]]
          ("127.0.0.1", 52217) [Byte.x02; Byte.x00; Byte.x01]
          {| rep_id := 0; rep_error := None; rep_result := [1] |} _ _ _ _).
  - intros rid [q Hq]. cbn in Hq.
    apply lookup_singleton_Some in Hq as [<- _]. cbn. lia.
  - reflexivity.
  - reflexivity.
  - reflexivity.
  - reflexivity.
Defined.

(** C7: a received datagram that does not parse against the wire format is
    dropped: the peer cache, the punch-state table and the pending-request
    table stay as they are, nothing is sent, no result sink is invoked and
    nothing reaches a caller; a run goes on as if the datagram had never
    arrived. *)
Theorem malformed_datagram_dropped ep src bytes :
  decode ep bytes = None →
  (∀ st, step ep st (Datagram src bytes) = (st, [])) ∧
  (∀ st pre post,
     run ep st (pre ++ Datagram src bytes :: post) = run ep st (pre ++ post)).
Proof.
  intros Hd.
  assert (∀ st, step ep st (Datagram src bytes) = (st, [])) as Hstep
    by (intros st; cbn [step]; by rewrite Hd).
  split; [done |]. intros st pre post. rewrite !run_app.
  destruct (run ep st pre) as [st1 out1]. cbn [run]. rewrite Hstep.
  by destruct (run ep st1 post).
Qed.

Lemma malformed_datagram_dropped_witness :
  step (consumer_endpoint sample_decode) sample_state
       (Datagram ("127.0.0.1", 52217) [Byte.x07; Byte.x01])
  = (sample_state, []).
Proof.
  apply (proj1 (malformed_datagram_dropped
                  (consumer_endpoint sample_decode) ("127.0.0.1", 52217)
                  [Byte.x07; Byte.x01] eq_refl)).
Defined.

(** ** Punching and the periodic driver *)

Lemma send_punch_keeps_established a b st :
  punch st !! b = Some Established →
  punch (send_punch a st).1 !! b = Some Established.
Proof.
  intros Hb. cbn. destruct (decide (a = b)) as [->|Hab].
  - by rewrite lookup_insert_eq, Hb.
  - by rewrite lookup_insert_ne.
Qed.

Lemma punch_step_keeps_established cands b st :
  punch st !! b = Some Established →
  punch (punch_step cands st).1 !! b = Some Established.
Proof.
  revert st. induction cands as [|a rest IH]; intros st Hb; [done |].
  cbn [punch_step]. destruct (below_established (punch st !! a)); [| by apply IH].
  pose proof (send_punch_keeps_established a b st Hb) as H1.
  destruct (send_punch a st) as [st1 out1]; cbn [fst] in H1.
  specialize (IH st1 H1). by destruct (punch_step rest st1).
Qed.

Lemma exec_call_keeps_established origin dir c b st :
  punch st !! b = Some Established →
  punch (exec_call origin dir c st).1 !! b = Some Established.
Proof.
  intros Hb.
  destruct c as [line|err result|key port|key|other|other payload timeout cb];
    cbn [exec_call]; try done.
  - by destruct origin as [[src rid]|].
  - destruct (dir key) as [cands|]; [| done].
    pose proof (punch_step_keeps_established cands b
                  (set_peers (<[key:=cands]> (peers st)) st) Hb) as H1.
    by destruct (punch_step cands _).
  - by apply send_punch_keeps_established.
Qed.

Lemma exec_keeps_established origin dir cs b st :
  punch st !! b = Some Established →
  punch (exec origin dir cs st).1 !! b = Some Established.
Proof.
  revert st. induction cs as [|c rest IH]; intros st Hb; [done |].
  cbn [exec].
  pose proof (exec_call_keeps_established origin dir c b st Hb) as H1.
  destruct (exec_call origin dir c st) as [st1 out1]; cbn [fst] in H1.
  specialize (IH st1 H1). by destruct (exec origin dir rest st1).
Qed.

(** C5: when an endpoint receives a well-formed punch datagram from an
    address [b] whose punch state is absent or below [Established], then in
    that very step it sends a punch-back datagram to [b] before anything
    else, [b] becomes [Established], and the punch event for [b] is emitted,
    whatever is subscribed to it. On the public server the event's handler
    then logs, punches once more and sends its request. *)
Theorem punch_back_on_punch ep st b bytes echo :
  decode ep bytes = Some (PUNCH echo) →
  below_established (punch st !! b) = true →
  punch (step ep st (Datagram b bytes)).1 !! b = Some Established ∧
  (∃ out, (step ep st (Datagram b bytes)).2
          = Send b (PUNCH None) :: PeerReady b :: out) ∧
  (on_punch ep = Some Consumer.on_punch →
   (step ep st (Datagram b bytes)).2 =
     [ Send b (PUNCH None);
       PeerReady b;
       Console (log_addr "punch from" b);
       Console (log "punching back...");
       Send b (PUNCH None);
       Send b (REQUEST {| req_id := next_id st; req_key := "";
                          req_payload := Payload.mk 10 |}) ]).
Proof.
  intros Hd Hb. cbn [step]. rewrite Hd. cbn [dispatch]. rewrite Hb.
  set (st1 := set_punch (<[b:=Established]> (punch st)) st).
  assert (punch st1 !! b = Some Established) as H1 by apply lookup_insert_eq.
  split_and!.
  - pose proof (exec_keeps_established None no_directory
                  (match on_punch ep with Some h => h b | None => [] end)
                  b st1 H1) as H2.
    by destruct (exec None no_directory _ st1).
  - destruct (exec None no_directory _ st1) as [st2 out]. by exists out.
  - intros ->. by cbn.
Qed.

Lemma punch_back_on_punch_witness :
  punch (step (server_endpoint sample_decode) init
              (Datagram ("127.0.0.1", 51563) [Byte.x00])).1
    !! ("127.0.0.1", 51563) = Some Established ∧
  (step (consumer_endpoint sample_decode) init
        (Datagram ("127.0.0.1", 52217) [Byte.x00])).2 =
  [ Send ("127.0.0.1", 52217) (PUNCH None);
    PeerReady ("127.0.0.1", 52217);
    Console (log_addr "punch from" ("127.0.0.1", 52217));
    Console (log "punching back...");
    Send ("127.0.0.1", 52217) (PUNCH None);
    Send ("127.0.0.1", 52217)
         (REQUEST {| req_id := 0; req_key := "";
                     req_payload := Payload.mk 10 |}) ].
Proof.
  split.
  - apply (punch_back_on_punch (server_endpoint sample_decode) init
             ("127.0.0.1", 51563) [Byte.x00] None); reflexivity.
  - apply (punch_back_on_punch (consumer_endpoint sample_decode) init
             ("127.0.0.1", 52217) [Byte.x00] None); reflexivity.
Defined.

(** C6: the periodic driver fires at a fixed interval, a parameter of
    [setInterval] that the worker sets to 1000 ms: the firings up to a
    horizon are those at the multiples of the period. Every tick of the
    worker performs, in this order, the announce of the local service, the
    lookup of the service key of interest, and the punch step over the
    candidates the lookup returned; with several keys of interest the
    lookups happen in the order of the keys, after the announce. *)
Theorem periodic_driver :
  Server.interval = 1000 ∧
  (∀ cb period horizon dir (i : nat),
     0 < period →
     Z.of_nat i < horizon `div` period →
     setInterval cb period horizon dir !! i
     = Some ((Z.of_nat i + 1) * period, Tick cb dir)) ∧
  (∀ cb period horizon dir,
     0 < period →
     Z.of_nat (length (setInterval cb period horizon dir))
     = Z.max 0 (horizon `div` period)) ∧
  (∀ ep st port dir,
     (step ep st (Tick (Server.on_interval port) dir)).2 =
     Announce "fibonacci_worker" port
     :: Lookup "fibonacci_consumer"
     :: ((λ a, Send a (PUNCH None))
           <$> List.filter (λ a, below_established (punch st !! a))
                           (default [] (dir "fibonacci_consumer")))) ∧
  (∀ ep st key port keys dir,
     head (step ep st (Tick (link_announce key port :: (peer_punch <$> keys))
                            dir)).2
     = Some (Announce key port) ∧
     lookups (step ep st (Tick (link_announce key port :: (peer_punch <$> keys))
                               dir)).2
     = keys).
Proof.
  split_and!.
  - done.
  - intros cb period horizon dir i Hp Hi. unfold setInterval.
    rewrite list_lookup_fmap, lookup_seqZ_lt by done. cbn.
    do 2 f_equal. lia.
  - intros cb period horizon dir Hp. unfold setInterval.
    rewrite length_fmap, length_seqZ. lia.
  - intros ep st port dir. cbn [step Server.on_interval exec exec_call].
    destruct (dir "fibonacci_consumer") as [cands|]; [| done].
    destruct (punch_step_spec cands
                (set_peers (<["fibonacci_consumer":=cands]> (peers st)) st))
      as (_ & _ & Ho).
    destruct (punch_step cands _) as [st1 out1]; cbn [fst snd] in *.
    subst out1. cbn. by rewrite app_nil_r.
  - intros ep st key port keys dir. cbn [step exec exec_call].
    pose proof (exec_peer_punch_lookups None dir keys st) as Hl.
    destruct (exec None dir (peer_punch <$> keys) st) as [st1 out1].
    cbn [fst snd] in *. done.
Qed.

Lemma periodic_driver_witness :
  setInterval (Server.on_interval 52217) Server.interval 3500
              (λ _, Some [("127.0.0.1", 51563)]) !! 2%nat
  = Some ((Z.of_nat 2 + 1) * Server.interval,
          Tick (Server.on_interval 52217) (λ _, Some [("127.0.0.1", 51563)])).
Proof.
  apply (proj1 (proj2 periodic_driver)); reflexivity.
Defined.

(** ** More about the fibonacci functions: order, size and cost *)

Section FibMore.
Import Fib FibCost.

Lemma _fibonacci_pos_aux (k : nat) n : (Z.to_nat n < k)%nat → 1 ≤ _fibonacci n.
Proof.
  revert n. induction k as [|k IH]; intros n Hk; [lia |].
  destruct (decide (n ≤ 1)) as [Hn|Hn].
  - by rewrite _fibonacci_base.
  - rewrite _fibonacci_rec by lia.
    pose proof (IH (n - 1) ltac:(lia)). pose proof (IH (n - 2) ltac:(lia)). lia.
Qed.

Lemma _fibonacci_pos n : 1 ≤ _fibonacci n.
Proof. apply (_fibonacci_pos_aux (S (Z.to_nat n))). lia. Qed.

Lemma _fibonacci_succ_le n : _fibonacci n ≤ _fibonacci (n + 1).
Proof.
  destruct (decide (n + 1 ≤ 1)) as [Hn|Hn].
  - rewrite !_fibonacci_base by lia. done.
  - rewrite (_fibonacci_rec (n + 1)) by lia.
    replace (n + 1 - 1) with n by lia.
    pose proof (_fibonacci_pos (n + 1 - 2)). lia.
Qed.

Lemma _fibonacci_succ_lt n : 1 ≤ n → _fibonacci n < _fibonacci (n + 1).
Proof.
  intros Hn. rewrite (_fibonacci_rec (n + 1)) by lia.
  replace (n + 1 - 1) with n by lia.
  pose proof (_fibonacci_pos (n + 1 - 2)). lia.
Qed.

Lemma _fibonacci_le n m : n ≤ m → _fibonacci n ≤ _fibonacci m.
Proof.
  intros Hnm. replace m with (n + Z.of_nat (Z.to_nat (m - n))) by lia.
  induction (Z.to_nat (m - n)) as [|k IH].
  - replace (n + Z.of_nat 0) with n by lia. done.
  - replace (n + Z.of_nat (S k)) with (n + Z.of_nat k + 1) by lia.
    pose proof (_fibonacci_succ_le (n + Z.of_nat k)). lia.
Qed.

Lemma _fibonacci_lt n m : 1 ≤ n → n < m → _fibonacci n < _fibonacci m.
Proof.
  intros Hn Hnm. pose proof (_fibonacci_succ_lt n Hn).
  pose proof (_fibonacci_le (n + 1) m ltac:(lia)). lia.
Qed.

Lemma fib_pair_spec (k : nat) :
  fib_pair k = (_fibonacci (Z.of_nat k), _fibonacci (Z.of_nat k + 1)).
Proof.
  induction k as [|k IH]; cbn [fib_pair].
  - by rewrite !_fibonacci_base by lia.
  - rewrite IH. f_equal.
    + f_equal. lia.
    + rewrite (_fibonacci_rec (Z.of_nat (S k) + 1)) by lia.
      replace (Z.of_nat (S k) + 1 - 1) with (Z.of_nat k + 1) by lia.
      replace (Z.of_nat (S k) + 1 - 2) with (Z.of_nat k) by lia. lia.
Qed.

Lemma _fibonacci_fib_pair n : _fibonacci n = (fib_pair (Z.to_nat n)).1.
Proof.
  rewrite fib_pair_spec. cbn [fst].
  destruct (decide (0 ≤ n)) as [Hn|Hn].
  - f_equal. lia.
  - replace (Z.of_nat (Z.to_nat n)) with 0 by lia.
    by rewrite !_fibonacci_base by lia.
Qed.

Lemma _fibonacci_calls_enough fuel n :
  (Z.to_nat n < fuel)%nat →
  _fibonacci_calls fuel n = Some (_fibonacci n, 2 * _fibonacci n - 1).
Proof.
  revert n. induction fuel as [|k IH]; intros n Hk; [lia |].
  cbn [_fibonacci_calls]. case_bool_decide as Hn.
  - by rewrite _fibonacci_base.
  - rewrite !IH by lia. cbn. rewrite (_fibonacci_rec n) by lia.
    do 2 f_equal. lia.
Qed.

Lemma total_app l1 l2 : total (l1 ++ l2) = total l1 + total l2.
Proof. unfold total. induction l1 as [|x l1 IH]; cbn; [done | lia]. Qed.

Lemma total_fibonacci_nat (k : nat) :
  total (_fibonacci <$> seqZ 0 (Z.of_nat k)) = _fibonacci (Z.of_nat k + 1) - 1.
Proof.
  induction k as [|k IH].
  - cbn. by rewrite _fibonacci_base by lia.
  - rewrite seqZ_S, fmap_app, total_app, IH. cbn.
    rewrite (_fibonacci_rec (Z.of_nat (S k) + 1)) by lia.
    replace (Z.of_nat (S k) + 1 - 1) with (Z.of_nat k + 1) by lia.
    replace (Z.of_nat (S k) + 1 - 2) with (Z.of_nat k) by lia.
    replace (0 + Z.of_nat k) with (Z.of_nat k) by lia. lia.
Qed.

Lemma fibonacci_loop_calls_enough fuel length i res calls :
  (Z.to_nat (length - i) + Z.to_nat length < fuel)%nat →
  fibonacci_loop_calls fuel length i res calls =
  Some (fibonacci_loop length i res,
        calls + 2 * total (_fibonacci <$> seqZ i (length - i))
        - Z.max 0 (length - i)).
Proof.
  revert i res calls. induction fuel as [|k IH]; intros i res calls Hk; [lia |].
  cbn [fibonacci_loop_calls]. case_bool_decide as Hi.
  - rewrite _fibonacci_calls_enough by lia. cbn.
    rewrite IH by lia. rewrite (fibonacci_loop_next length i) by lia.
    rewrite (seqZ_cons i) by lia. cbn.
    replace (Z.succ i) with (i + 1) by lia.
    replace (Z.pred (length - i)) with (length - (i + 1)) by lia.
    do 2 f_equal. unfold total. cbn. lia.
  - rewrite fibonacci_loop_done by lia. rewrite seqZ_nil by lia. cbn.
    do 2 f_equal. lia.
Qed.

Lemma _fibonacci_fuel_tight fuel n :
  (Z.to_nat (Z.max 1 n) ≤ fuel)%nat →
  _fibonacci_fuel fuel n = Some (_fibonacci n).
Proof.
  revert n. induction fuel as [|k IH]; intros n Hk; [lia |].
  cbn [_fibonacci_fuel]. case_bool_decide as Hn.
  - by rewrite _fibonacci_base.
  - rewrite !IH by lia. cbn. by rewrite (_fibonacci_rec n) by lia.
Qed.

Lemma _fibonacci_fuel_short fuel n :
  (fuel < Z.to_nat (Z.max 1 n))%nat → _fibonacci_fuel fuel n = None.
Proof.
  revert n. induction fuel as [|k IH]; intros n Hk; [done |].
  cbn [_fibonacci_fuel]. rewrite bool_decide_eq_false_2 by lia.
  by rewrite (IH (n - 1)) by lia.
Qed.

Lemma _fibonacci_upper_aux (k : nat) n :
  (Z.to_nat n < k)%nat → 0 ≤ n → _fibonacci n ≤ 2 ^ n.
Proof.
  revert n. induction k as [|k IH]; intros n Hk Hn; [lia |].
  destruct (decide (n ≤ 1)) as [H1|H1].
  - rewrite _fibonacci_base by done.
    pose proof (Z.pow_pos_nonneg 2 n ltac:(lia) Hn). lia.
  - rewrite _fibonacci_rec by lia.
    pose proof (IH (n - 1) ltac:(lia) ltac:(lia)).
    pose proof (IH (n - 2) ltac:(lia) ltac:(lia)).
    replace n with (Z.succ (Z.succ (n - 2))) at 3 by lia.
    rewrite !Z.pow_succ_r by lia.
    replace (n - 1) with (Z.succ (n - 2)) in * by lia.
    rewrite Z.pow_succ_r in * by lia.
    pose proof (Z.pow_pos_nonneg 2 (n - 2) ltac:(lia) ltac:(lia)). lia.
Qed.

Lemma _fibonacci_lower_even (k : nat) :
  2 ^ Z.of_nat k ≤ _fibonacci (2 * Z.of_nat k).
Proof.
  induction k as [|k IH].
  - by rewrite _fibonacci_base by lia.
  - replace (Z.of_nat (S k)) with (Z.succ (Z.of_nat k)) by lia.
    rewrite Z.pow_succ_r by lia.
    rewrite (_fibonacci_rec (2 * Z.succ (Z.of_nat k))) by lia.
    replace (2 * Z.succ (Z.of_nat k) - 2) with (2 * Z.of_nat k) by lia.
    pose proof (_fibonacci_le (2 * Z.of_nat k) (2 * Z.succ (Z.of_nat k) - 1)
                  ltac:(lia)). lia.
Qed.

Lemma take_seqZ_0 m n : 0 ≤ m ≤ n → take (Z.to_nat m) (seqZ 0 n) = seqZ 0 m.
Proof.
  intros Hmn. replace n with (m + (n - m)) by lia.
  rewrite seqZ_app by lia.
  rewrite take_app_length'; [done |]. by rewrite length_seqZ.
Qed.

End FibMore.

(** X1: the worker's doubly recursive [_fibonacci] computes the same numbers
    as the accumulator loop, for every integer argument (a negative one
    counts as 0), and [fibonacci(length)] is the list of the first
    [max(length, 0)] numbers that loop produces. *)
Theorem fibonacci_is_accumulator_loop :
  (∀ n, Fib._fibonacci n = (FibCost.fib_pair (Z.to_nat n)).1) ∧
  (∀ length,
     Fib.fibonacci length =
     (λ k, (FibCost.fib_pair k).1) <$> seq 0 (Z.to_nat length)).
Proof.
  split; [apply _fibonacci_fib_pair |].
  intros length. rewrite fibonacci_seqZ. unfold seqZ.
  rewrite <- list_fmap_compose. apply list_fmap_ext. intros i k _. cbn.
  rewrite _fibonacci_fib_pair. do 2 f_equal. lia.
Qed.

(** X2: [_fibonacci] never returns less than 1, never decreases when its
    argument grows, and grows strictly from argument 1 on. *)
Theorem _fibonacci_monotone :
  (∀ n, 1 ≤ Fib._fibonacci n) ∧
  (∀ n m, n ≤ m → Fib._fibonacci n ≤ Fib._fibonacci m) ∧
  (∀ n m, 1 ≤ n → n < m → Fib._fibonacci n < Fib._fibonacci m).
Proof.
  split_and!; [apply _fibonacci_pos | apply _fibonacci_le | apply _fibonacci_lt].
Qed.

Lemma _fibonacci_monotone_witness :
  Fib._fibonacci (-3) ≤ Fib._fibonacci 4 ∧ Fib._fibonacci 1 < Fib._fibonacci 2.
Proof.
  split.
  - apply (proj1 (proj2 _fibonacci_monotone) (-3) 4). lia.
  - apply (proj2 (proj2 _fibonacci_monotone) 1 2); lia.
Defined.

(** X3: for [n >= 0] the value [_fibonacci(n)] lies between [2^(n div 2)]
    and [2^n]: the numbers the worker returns grow exponentially with the
    index. *)
Theorem _fibonacci_growth n :
  0 ≤ n →
  2 ^ (n `div` 2) ≤ Fib._fibonacci n ≤ 2 ^ n.
Proof.
  intros Hn. split.
  - pose proof (_fibonacci_lower_even (Z.to_nat (n `div` 2))) as Hlow.
    pose proof (Z.div_pos n 2 Hn ltac:(lia)).
    rewrite Z2Nat.id in Hlow by done.
    pose proof (Z.mul_div_le n 2 ltac:(lia)).
    pose proof (_fibonacci_le (2 * (n `div` 2)) n ltac:(lia)). lia.
  - apply (_fibonacci_upper_aux (S (Z.to_nat n))); lia.
Qed.

Lemma _fibonacci_growth_witness :
  2 ^ (9 `div` 2) ≤ Fib._fibonacci 9 ≤ 2 ^ 9.
Proof. apply (_fibonacci_growth 9). lia. Defined.

(** X4: for every [length <= 78] all elements of [fibonacci(length)] lie
    between 1 and [2^53 - 1], the range in which a JavaScript number holds
    an integer exactly, so that the additions made on the way are exact. *)
Theorem fibonacci_exact_range length (i : nat) v :
  length ≤ 78 →
  Fib.fibonacci length !! i = Some v →
  1 ≤ v < 2 ^ 53.
Proof.
  intros Hlen Hv.
  assert (Z.of_nat i < length) as Hi.
  { apply lookup_lt_Some in Hv.
    rewrite fibonacci_seqZ, length_fmap, length_seqZ in Hv. lia. }
  rewrite fibonacci_lookup in Hv by done. injection Hv as <-.
  split; [apply _fibonacci_pos |].
  pose proof (_fibonacci_le (Z.of_nat i) 77 ltac:(lia)) as Hle.
  rewrite (_fibonacci_fib_pair 77) in Hle.
  assert ((FibCost.fib_pair (Z.to_nat 77)).1 < 2 ^ 53) by (by vm_compute).
  lia.
Qed.

Lemma fibonacci_exact_range_witness :
  1 ≤ 55 < 2 ^ 53.
Proof.
  apply (fibonacci_exact_range 10 9%nat 55); [lia | reflexivity].
Defined.

(** X5: evaluating [_fibonacci(n)] makes [2 * _fibonacci(n) - 1] calls of
    [_fibonacci], the outermost included: the cost of a call is
    proportional to the value it returns. A stack bound above [n] is enough
    for the evaluation to return, and whenever it returns, it returns that
    value and that count. *)
Theorem _fibonacci_call_count fuel n :
  ((Z.to_nat n < fuel)%nat →
   FibCost._fibonacci_calls fuel n
   = Some (Fib._fibonacci n, 2 * Fib._fibonacci n - 1)) ∧
  (∀ v c, FibCost._fibonacci_calls fuel n = Some (v, c) →
          v = Fib._fibonacci n ∧ c = 2 * v - 1).
Proof.
  split; [apply _fibonacci_calls_enough |].
  revert n. induction fuel as [|k IH]; intros n v c Hr; [done |].
  cbn [FibCost._fibonacci_calls] in Hr. case_bool_decide as Hn.
  - injection Hr as <- <-. by rewrite _fibonacci_base.
  - destruct (FibCost._fibonacci_calls k (n - 1)) as [[a ca]|] eqn:Ha; [| done].
    destruct (FibCost._fibonacci_calls k (n - 2)) as [[b cb]|] eqn:Hb; [| done].
    cbn in Hr. injection Hr as <- <-.
    destruct (IH _ _ _ Ha) as [-> ->]. destruct (IH _ _ _ Hb) as [-> ->].
    rewrite (_fibonacci_rec n) by lia. lia.
Qed.

Lemma _fibonacci_call_count_witness :
  FibCost._fibonacci_calls 11 10
  = Some (Fib._fibonacci 10, 2 * Fib._fibonacci 10 - 1).
Proof. apply (proj1 (_fibonacci_call_count 11 10)). lia. Defined.

(** X6: for [length >= 0] the whole of [fibonacci(length)] makes
    [2 * _fibonacci(length + 1) - length - 2] calls of [_fibonacci]; its
    loop recomputes every element from scratch, and the total grows like the
    elements themselves. *)
Theorem fibonacci_call_count fuel length :
  0 ≤ length →
  (2 * Z.to_nat length < fuel)%nat →
  FibCost.fibonacci_calls fuel length
  = Some (Fib.fibonacci length,
          2 * Fib._fibonacci (length + 1) - length - 2).
Proof.
  intros Hlen Hfuel. unfold FibCost.fibonacci_calls.
  rewrite fibonacci_loop_calls_enough by lia. unfold Fib.fibonacci.
  do 2 f_equal.
  pose proof (total_fibonacci_nat (Z.to_nat length)) as Ht.
  rewrite Z2Nat.id in Ht by done.
  replace (length - 0) with length by lia. lia.
Qed.

Lemma fibonacci_call_count_witness :
  FibCost.fibonacci_calls 21 10
  = Some (Fib.fibonacci 10, 2 * Fib._fibonacci (10 + 1) - 10 - 2).
Proof. apply (fibonacci_call_count 21 10); lia. Defined.

(** X7: [_fibonacci(n)] needs a call stack of exactly [max(n, 1)] frames:
    with that many it returns its value, with fewer it does not return. *)
Theorem _fibonacci_stack_depth fuel n :
  ((Z.to_nat (Z.max 1 n) ≤ fuel)%nat →
   Fib._fibonacci_fuel fuel n = Some (Fib._fibonacci n)) ∧
  ((fuel < Z.to_nat (Z.max 1 n))%nat →
   Fib._fibonacci_fuel fuel n = None).
Proof. split; [apply _fibonacci_fuel_tight | apply _fibonacci_fuel_short]. Qed.

Lemma _fibonacci_stack_depth_witness :
  Fib._fibonacci_fuel 6 6 = Some (Fib._fibonacci 6) ∧
  Fib._fibonacci_fuel 5 6 = None.
Proof.
  split.
  - apply (proj1 (_fibonacci_stack_depth 6 6)). lia.
  - apply (proj2 (_fibonacci_stack_depth 5 6)). lia.
Defined.

(** X8: the elements of [fibonacci(n)] add up to [_fibonacci(n + 1) - 1],
    for every integer [n]. *)
Theorem fibonacci_total n :
  FibCost.total (Fib.fibonacci n) = Fib._fibonacci (n + 1) - 1.
Proof.
  rewrite fibonacci_seqZ. destruct (decide (0 ≤ n)) as [Hn|Hn].
  - pose proof (total_fibonacci_nat (Z.to_nat n)) as Ht.
    by rewrite Z2Nat.id in Ht by done.
  - rewrite seqZ_nil by lia. cbn. by rewrite _fibonacci_base by lia.
Qed.

(** X9: asking for fewer elements gives the beginning of the longer
    answer: for all integers [m <= n], [fibonacci(m)] is [fibonacci(n)] cut
    after [max(m, 0)] elements. *)
Theorem fibonacci_take m n :
  m ≤ n →
  Fib.fibonacci m = take (Z.to_nat m) (Fib.fibonacci n).
Proof.
  intros Hmn. rewrite !fibonacci_seqZ, <- fmap_take.
  destruct (decide (0 ≤ m)) as [Hm|Hm].
  - by rewrite take_seqZ_0 by lia.
  - rewrite seqZ_nil by lia. by replace (Z.to_nat m) with 0%nat by lia.
Qed.

Lemma fibonacci_take_witness :
  Fib.fibonacci 4 = take (Z.to_nat 4) (Fib.fibonacci 10).
Proof. apply (fibonacci_take 4 10). lia. Defined.

(** X10: [fibonacci(n)] is sorted: an element never exceeds a later one,
    and from index 1 on every element is smaller than all later ones; only
    the two leading ones are equal. *)
Theorem fibonacci_sorted n (i j : nat) a b :
  (i < j)%nat →
  Fib.fibonacci n !! i = Some a →
  Fib.fibonacci n !! j = Some b →
  a ≤ b ∧ ((1 ≤ i)%nat → a < b).
Proof.
  intros Hij Ha Hb.
  assert (Z.of_nat j < n) as Hj.
  { apply lookup_lt_Some in Hb.
    rewrite fibonacci_seqZ, length_fmap, length_seqZ in Hb. lia. }
  rewrite fibonacci_lookup in Ha, Hb by lia.
  injection Ha as <-. injection Hb as <-. split.
  - apply _fibonacci_le. lia.
  - intros Hi. apply _fibonacci_lt; lia.
Qed.

Lemma fibonacci_sorted_witness :
  3 ≤ 21 ∧ ((1 ≤ 3)%nat → 3 < 21).
Proof.
  apply (fibonacci_sorted 10 3 7 3 21); [lia | reflexivity | reflexivity].
Defined.

(** X11: for every payload object whose [length] is an integer, the request
    handler answers once, with a null error and a result of
    [max(payload.length, 0)] elements: it puts no upper limit on the size of
    the reply. *)
Theorem reply_size rid key payload :
  ∃ result,
    Server.on_request rid key payload =
    [ say (log "received request, calculating & replying...");
      handler_reply None result ] ∧
    length result = Z.to_nat (Payload.length payload).
Proof.
  exists (Fib.fibonacci (Payload.length payload)). split; [done |].
  by rewrite fibonacci_seqZ, length_fmap, length_seqZ.
Qed.
